(** * Scoring helpers of ForecastMetricsV3.jsx

    A shallow embedding of the three computations of the page that carry a
    contract: [calculateWIS], [calculatePIS] and the coverage percentage of
    [CoverageModule] / [CoverageBar]; and of their callers: the intervals,
    status line, tiles and scale of [WISModule], the flags of
    [generateCoverage], the calibration badge of [CoverageBar], and the tab
    state of [TabNav] / [App].

    Numbers.  A JavaScript Number is modelled by an exact rational ([Q]):
    the finite values, with [+], [-], [*], [/] computed without rounding.
    Binary64 rounding, overflow, [NaN] and the infinities are outside the
    model; in particular [2 / alpha] at [alpha = 0] is [Infinity] in
    JavaScript and [0] here, and every statement about it assumes
    [alpha > 0].  Equality of numbers is [Qeq] ([==]). *)

From Stdlib Require Import QArith Qround Qabs ZArith List Bool Lia Lqa.
From Stdlib Require String.
Import ListNotations String.StringSyntax.
Delimit Scope string_scope with string.

Local Open Scope Q_scope.

(** ** Numbers *)

Module Num.

(** The relational operators on finite numbers. *)
Definition lt (x y : Q) : bool := negb (Qle_bool y x).
Definition gt (x y : Q) : bool := lt y x.
Definition le (x y : Q) : bool := Qle_bool x y.
Definition ge (x y : Q) : bool := le y x.

(** [Math.abs]. *)
Definition abs (x : Q) : Q := Qabs x.

(** The integer [n] of [Number.prototype.toFixed]: "an integer for which
    [n - y] is as close to zero as possible; if there are two such [n], pick
    the larger".  Used on [y >= 0] only. *)
Definition nearest (y : Q) : Z := Qfloor (y + (1 # 2)).

Definition pow10 (f : nat) : Q := inject_Z (10 ^ Z.of_nat f).

(** [x.toFixed(f)].  JavaScript returns the decimal string of [n / 10^f]
    with a leading ["-"] when [x < 0]; the embedding keeps the number that
    string denotes, which is what [Number(wis.dispersion)] reads back at the
    call site.  (For [x >= 10^21] JavaScript prints [x] itself; a binary64
    value that large is an integer, so the number denoted is the same.) *)
Definition toFixed (f : nat) (x : Q) : Q :=
  if lt x 0
  then - (inject_Z (nearest (- x * pow10 f)) / pow10 f)
  else inject_Z (nearest (x * pow10 f)) / pow10 f.

End Num.

Notation "x <? y" := (Num.lt x y) : Q_scope.
Notation "x >? y" := (Num.gt x y) : Q_scope.
Notation "x <=? y" := (Num.le x y) : Q_scope.
Notation "x >=? y" := (Num.ge x y) : Q_scope.

(** ** Data *)

(** The object literal [{ lower, upper, alpha }] that [calculateWIS]
    destructures (the caller's [name] label is never read). *)
Record Interval := mkInterval { lower : Q; upper : Q; alpha : Q }.

Module WIS.
Record Result := mkResult {
  total : Q;
  dispersion : Q;
  overprediction : Q;
  underprediction : Q;
  absError : Q
}.
End WIS.

Module PIS.
Record Result := mkResult {
  width : Q;
  penalty : Q;
  total : Q;
  outsideLower : bool;
  outsideUpper : bool;
  inside : bool
}.
End PIS.

(** ** calculateWIS *)

(** The three [let] accumulators of [calculateWIS]. *)
Record Acc := mkAcc {
  acc_dispersion : Q;
  acc_overprediction : Q;
  acc_underprediction : Q
}.

Definition acc0 : Acc := mkAcc 0 0 0.

(** The body of the [forEach] callback: one interval folded into the
    accumulators. *)
Definition wis_step (observed : Q) (a : Acc) (iv : Interval) : Acc :=
  let dispersion := acc_dispersion a + (upper iv - lower iv) * (alpha iv / 2) in
  let underprediction :=
    if observed <? lower iv
    then acc_underprediction a + (lower iv - observed) * alpha iv
    else acc_underprediction a in
  let overprediction :=
    if observed >? upper iv
    then acc_overprediction a + (observed - upper iv) * alpha iv
    else acc_overprediction a in
  mkAcc dispersion overprediction underprediction.

(** [intervals.forEach(...)], from the given accumulator state. *)
Definition wis_loop (observed : Q) (intervals : list Interval) (a : Acc) : Acc :=
  fold_left (wis_step observed) intervals a.

(** The value of [total] before [toFixed]. *)
Definition wis_total_raw (a : Acc) (absError : Q) : Q :=
  acc_dispersion a + acc_overprediction a + acc_underprediction a
  + absError * (1 # 2).

Definition calculateWIS (observed median : Q) (intervals : list Interval)
  : WIS.Result :=
  let a := wis_loop observed intervals acc0 in
  let absError := Num.abs (observed - median) in
  WIS.mkResult
    (Num.toFixed 1 (wis_total_raw a absError))
    (Num.toFixed 1 (acc_dispersion a))
    (Num.toFixed 1 (acc_overprediction a))
    (Num.toFixed 1 (acc_underprediction a))
    (Num.toFixed 1 absError).

(** ** calculatePIS *)

Definition pis_penalty (observed lower upper alpha : Q) : Q :=
  if observed <? lower then (2 / alpha) * (lower - observed)
  else if observed >? upper then (2 / alpha) * (observed - upper)
  else 0.

Definition calculatePIS (observed lower upper alpha : Q) : PIS.Result :=
  let width := upper - lower in
  let penalty := pis_penalty observed lower upper alpha in
  PIS.mkResult
    (Num.toFixed 1 width)
    (Num.toFixed 1 penalty)
    (Num.toFixed 1 (width + penalty))
    (observed <? lower)
    (observed >? upper)
    ((observed >=? lower) && (observed <=? upper)).

(** ** Coverage *)

(** The flags themselves come from [generateCoverage], which draws them
    from [Math.sin]; the embedding takes the list of flags as given. *)

(** [hits.filter(Boolean).length]. *)
Definition hitCount (hits : list bool) : nat :=
  length (filter (fun h => h) hits).

Definition of_nat (n : nat) : Q := inject_Z (Z.of_nat n).

(** [CoverageBar]: [(hitCount / total) * 100] with [total = hits.length]. *)
Definition coverage (hits : list bool) : Q :=
  let total := length hits in
  (of_nat (hitCount hits) / of_nat total) * 100.

(** [CoverageModule]: [cov95] / [cov50], the percentage over [sampleSize]
    printed with no decimals. *)
Definition cov (hits : list bool) (sampleSize : nat) : Q :=
  Num.toFixed 0 ((of_nat (hitCount hits) / of_nat sampleSize) * 100).

(** ** The scores as the specification words them *)

(** The per-interval terms of the three accumulators. *)
Definition dispersion_term (iv : Interval) : Q :=
  (upper iv - lower iv) * (alpha iv / 2).
Definition underprediction_term (observed : Q) (iv : Interval) : Q :=
  (lower iv - observed) * alpha iv.
Definition overprediction_term (observed : Q) (iv : Interval) : Q :=
  (observed - upper iv) * alpha iv.

(** A sum of numbers, with no order of accumulation implied. *)
Definition Qsum (l : list Q) : Q := fold_right Qplus 0 l.

Definition below (observed : Q) (iv : Interval) : bool := observed <? lower iv.
Definition above (observed : Q) (iv : Interval) : bool := observed >? upper iv.

Definition sum_dispersion (intervals : list Interval) : Q :=
  Qsum (map dispersion_term intervals).
Definition sum_underprediction (observed : Q) (intervals : list Interval) : Q :=
  Qsum (map (underprediction_term observed) (filter (below observed) intervals)).
Definition sum_overprediction (observed : Q) (intervals : list Interval) : Q :=
  Qsum (map (overprediction_term observed) (filter (above observed) intervals)).



(** An interval as the data model wants it. *)
Definition well_formed (iv : Interval) : Prop :=
  lower iv <= upper iv /\ 0 < alpha iv <= 1.

(** Exactly one of three flags is set. *)
Definition exactly_one (a b c : bool) : Prop :=
  (a = true /\ b = false /\ c = false)
  \/ (a = false /\ b = true /\ c = false)
  \/ (a = false /\ b = false /\ c = true).

(** The list with the interval at index [i] replaced (unchanged when [i]
    is not an index of the list). *)
Fixpoint replace_at (i : nat) (iv' : Interval) (l : list Interval)
  : list Interval :=
  match l, i with
  | [], _ => []
  | _ :: tl, O => iv' :: tl
  | hd :: tl, S j => hd :: replace_at j iv' tl
  end.

(** The observation lies within the bounds of the interval. *)
Definition within (observed : Q) (iv : Interval) : Prop :=
  lower iv <= observed <= upper iv.


(** ** Inputs of the concrete runs *)

(** A 50% interval around 2, and an interval with its bounds the wrong way
    round. *)
Definition iv_half : Interval := mkInterval 1 3 (1 # 2).


(** The 50% interval [0, 8], the same widened by an eighth and by two. *)
Definition iv_wide : Interval := mkInterval 0 8 (1 # 2).
Definition iv_widest : Interval := mkInterval 0 10 (1 # 2).

Definition hits_19_of_20 : list bool :=
  [true; true; true; true; true; true; true; false; true; true;
   true; true; true; true; true; true; true; true; true; true].

Definition wis_demo : list Interval := [mkInterval 1600 2400 (5 # 100)].

(** ** The interval score inside the weighted score *)



(** ** WISModule *)

Module WISModule.

Definition median : Q := 2000.
Definition scale (width : Q) : Q := width / 100.

(** The three entries of the [intervals] array, in order: [intervals[0]],
    [intervals[1]], [intervals[2]]. *)
Definition pi95 (width : Q) : Interval :=
  mkInterval (median - 400 * scale width) (median + 400 * scale width) (5 # 100).
Definition pi80 (width : Q) : Interval :=
  mkInterval (median - 280 * scale width) (median + 280 * scale width) (2 # 10).
Definition pi50 (width : Q) : Interval :=
  mkInterval (median - 160 * scale width) (median + 160 * scale width) (5 # 10).

Definition intervals (width : Q) : list Interval :=
  [pi95 width; pi80 width; pi50 width].


Definition pis95 (observed width : Q) : PIS.Result :=
  calculatePIS observed (lower (pi95 width)) (upper (pi95 width)) (5 # 100).
Definition pis50 (observed width : Q) : PIS.Result :=
  calculatePIS observed (lower (pi50 width)) (upper (pi50 width)) (5 # 10).

Definition in95 (observed width : Q) : bool :=
  (observed >=? lower (pi95 width)) && (observed <=? upper (pi95 width)).
Definition in50 (observed width : Q) : bool :=
  (observed >=? lower (pi50 width)) && (observed <=? upper (pi50 width)).

(** Position calculations for the visualization. *)
Definition minVal : Q := 1200.
Definition maxVal : Q := 2800.
Definition toPercent (v : Q) : Q := ((v - minVal) / (maxVal - minVal)) * 100.


(** The four status lines under the score tiles:
    "Observed value is inside all intervals", "Observed is within 95% PI but
    outside 50%", "Observed is below 95% lower bound", "Observed is above 95%
    upper bound". *)
Inductive Message := InsideAll | Within95Outside50 | Below95 | Above95.

(** [{cond && "text"}]: the text when [cond] holds, nothing otherwise. *)
Definition shown (cond : bool) (m : Message) : list Message :=
  if cond then [m] else [].

Definition status (observed width : Q) : list Message :=
  shown (in95 observed width && in50 observed width) InsideAll
  ++ shown (in95 observed width && negb (in50 observed width)) Within95Outside50
  ++ shown (negb (in95 observed width) && (observed <? lower (pi95 width)))
       Below95
  ++ shown (negb (in95 observed width) && (observed >? upper (pi95 width)))
       Above95.

End WISModule.

(** ** CoverageModule *)

Module CoverageModule.

Section Generate.

(** [Math.sin] is left abstract: nothing below depends on its values. *)
Variable sin : Q -> Q.

(** One pass of the loop body of [generateCoverage]: the flag pushed at
    index [i]. *)
Definition flag (target s : Q) (i : nat) : bool :=
  let rand := sin (s * 1000 + of_nat i * 9999) * 10000 in
  (rand - inject_Z (Qfloor rand)) <? target.

(** [for (let i = ...; i < n; i++) hits.push(...)], with [count] passes
    left to run from index [i]. *)
Fixpoint generate_loop (target s : Q) (count i : nat) (hits : list bool)
  : list bool :=
  match count with
  | O => hits
  | S c => generate_loop target s c (S i) (hits ++ [flag target s i])
  end.

Definition generateCoverage (n : nat) (target s : Q) : list bool :=
  generate_loop target s n 0 [].

Definition hits95 (sampleSize : nat) (seed : Q) : list bool :=
  generateCoverage sampleSize (95 # 100) seed.
Definition hits50 (sampleSize : nat) (seed : Q) : list bool :=
  generateCoverage sampleSize (50 # 100) (seed + 1).

Definition cov95 (sampleSize : nat) (seed : Q) : Q :=
  cov (hits95 sampleSize seed) sampleSize.
Definition cov50 (sampleSize : nat) (seed : Q) : Q :=
  cov (hits50 sampleSize seed) sampleSize.

End Generate.

(** [CoverageBar]: [Math.abs(coverage - target) < 15]. *)
Definition isCalibrated (hits : list bool) (target : Q) : bool :=
  Num.abs (coverage hits - target) <? 15.

End CoverageModule.

(** ** TabNav and App *)

Module App.

Inductive Panel := OverviewPanel | IntervalsPanel | WISPanel | CoveragePanel.

(** The [tabs] array of [TabNav]: [id] and [label]. *)
Definition tabs : list (String.string * String.string) :=
  [("overview"%string, "Overview"%string);
   ("intervals"%string, "Prediction Intervals"%string);
   ("wis"%string, "Weighted Interval Score"%string);
   ("coverage"%string, "Coverage"%string)].

(** [useState('overview')]. *)
Definition initial : String.string := "overview"%string.

(** [{activeTab === id && <Panel />}]. *)
Definition render_if (cond : bool) (p : Panel) : list Panel :=
  if cond then [p] else [].

(** The panels [App] puts inside [main]. *)
Definition main (activeTab : String.string) : list Panel :=
  render_if (String.eqb activeTab "overview") OverviewPanel
  ++ render_if (String.eqb activeTab "intervals") IntervalsPanel
  ++ render_if (String.eqb activeTab "wis") WISPanel
  ++ render_if (String.eqb activeTab "coverage") CoveragePanel.

(** The tab buttons drawn as active ([active === t.id]). *)
Definition active_buttons (active : String.string)
  : list (String.string * String.string) :=
  filter (fun t => String.eqb active (fst t)) tabs.

(** A click on the [k]-th tab button: [setActive(t.id)]; there is no
    button past the end of [tabs]. *)
Definition click (activeTab : String.string) (k : nat) : String.string :=
  match nth_error tabs k with
  | Some t => fst t
  | None => activeTab
  end.

(** The state after a sequence of clicks, from the initial state. *)
Definition after (clicks : list nat) : String.string :=
  fold_left click clicks initial.

End App.

(** ** Facts about numbers *)

Section NumFacts.

Lemma lt_true (x y : Q) : (x <? y) = true <-> x < y.
Proof.
  unfold Num.lt. rewrite negb_true_iff, <- not_true_iff_false, Qle_bool_iff.
  split; [apply Qnot_le_lt | apply Qlt_not_le].
Qed.

Lemma lt_false (x y : Q) : (x <? y) = false <-> y <= x.
Proof.
  unfold Num.lt. rewrite negb_false_iff. apply Qle_bool_iff.
Qed.

Lemma gt_true (x y : Q) : (x >? y) = true <-> y < x.
Proof. apply lt_true. Qed.

Lemma gt_false (x y : Q) : (x >? y) = false <-> x <= y.
Proof. apply lt_false. Qed.

Lemma le_true (x y : Q) : (x <=? y) = true <-> x <= y.
Proof. apply Qle_bool_iff. Qed.

Lemma ge_true (x y : Q) : (x >=? y) = true <-> y <= x.
Proof. apply Qle_bool_iff. Qed.

Lemma pow10_pos (f : nat) : 0 < Num.pow10 f.
Proof.
  unfold Num.pow10. change 0 with (inject_Z 0). rewrite <- Zlt_Qlt.
  apply Z.pow_pos_nonneg; lia.
Qed.

(** [nearest] is the integer [toFixed] asks for: no integer is closer, and
    of two equally close ones it is the larger. *)
Lemma nearest_closest (y : Q) (k : Z) :
  Qabs (inject_Z (Num.nearest y) - y) <= Qabs (inject_Z k - y)
  /\ (Qabs (inject_Z k - y) == Qabs (inject_Z (Num.nearest y) - y)
      -> (k <= Num.nearest y)%Z).
Proof.
  unfold Num.nearest. set (n := Qfloor (y + (1 # 2))).
  assert (Hlo : inject_Z n <= y + (1 # 2)) by apply Qfloor_le.
  assert (Hhi : y + (1 # 2) < inject_Z n + 1).
  { generalize (Qlt_floor (y + (1 # 2))). fold n.
    rewrite inject_Z_plus. trivial. }
  assert (Hn : Qabs (inject_Z n - y) <= 1 # 2).
  { apply Qabs_Qle_condition. split; lra. }
  destruct (Z_lt_le_dec n k) as [Hk | Hk].
  - assert (Hq : inject_Z n + 1 <= inject_Z k).
    { change 1 with (inject_Z 1). rewrite <- inject_Z_plus, <- Zle_Qle. lia. }
    assert (Hfar : 1 # 2 < Qabs (inject_Z k - y)).
    { rewrite Qabs_pos by lra. lra. }
    split; [lra | intros He; rewrite He in Hfar; lra].
  - split; [| intros _; exact Hk].
    destruct (Z.eq_dec k n) as [-> | Hne]; [apply Qle_refl |].
    assert (Hq : inject_Z k + 1 <= inject_Z n).
    { change 1 with (inject_Z 1). rewrite <- inject_Z_plus, <- Zle_Qle. lia. }
    rewrite (Qabs_neg (inject_Z k - y)) by lra. lra.
Qed.

Lemma lt_compat (x x' y y' : Q) : x == x' -> y == y' -> (x <? y) = (x' <? y').
Proof. intros Hx Hy. unfold Num.lt. rewrite Hx, Hy. reflexivity. Qed.

Lemma nearest_compat (x y : Q) : x == y -> Num.nearest x = Num.nearest y.
Proof. intros H. unfold Num.nearest. rewrite H. reflexivity. Qed.

Lemma nearest_mono (x y : Q) : x <= y -> (Num.nearest x <= Num.nearest y)%Z.
Proof.
  intros H. apply Qfloor_resp_le. lra.
Qed.

Lemma nearest_nonneg (x : Q) : 0 <= x -> (0 <= Num.nearest x)%Z.
Proof.
  intros H. change 0%Z with (Num.nearest 0). now apply nearest_mono.
Qed.


Lemma scaled_mono (f : nat) (a b : Z) :
  (a <= b)%Z -> inject_Z a / Num.pow10 f <= inject_Z b / Num.pow10 f.
Proof.
  intros H. apply Qmult_le_compat_r.
  - now rewrite <- Zle_Qle.
  - apply Qinv_le_0_compat, Qlt_le_weak, pow10_pos.
Qed.

Lemma scaled_nonneg (f : nat) (a : Z) :
  (0 <= a)%Z -> 0 <= inject_Z a / Num.pow10 f.
Proof.
  intros H. apply Qle_trans with (inject_Z 0 / Num.pow10 f).
  - unfold Qdiv. rewrite Qmult_0_l. apply Qle_refl.
  - now apply scaled_mono.
Qed.

Lemma toFixed_compat (f : nat) (x y : Q) :
  x == y -> Num.toFixed f x = Num.toFixed f y.
Proof.
  intros H. unfold Num.toFixed.
  rewrite (lt_compat x y 0 0 H (Qeq_refl 0)).
  rewrite (nearest_compat (- x * Num.pow10 f) (- y * Num.pow10 f))
    by (rewrite H; reflexivity).
  rewrite (nearest_compat (x * Num.pow10 f) (y * Num.pow10 f))
    by (rewrite H; reflexivity).
  reflexivity.
Qed.

Lemma toFixed_nonneg (f : nat) (x : Q) : 0 <= x -> 0 <= Num.toFixed f x.
Proof.
  intros H. unfold Num.toFixed.
  destruct (x <? 0) eqn:E; [apply lt_true in E; lra |].
  apply scaled_nonneg, nearest_nonneg, Qmult_le_0_compat; [exact H |].
  apply Qlt_le_weak, pow10_pos.
Qed.

Lemma toFixed_nonpos (f : nat) (x : Q) : x <= 0 -> Num.toFixed f x <= 0.
Proof.
  intros H. unfold Num.toFixed.
  destruct (x <? 0) eqn:E.
  - assert (0 <= inject_Z (Num.nearest (- x * Num.pow10 f)) / Num.pow10 f).
    { apply scaled_nonneg, nearest_nonneg, Qmult_le_0_compat; [lra |].
      apply Qlt_le_weak, pow10_pos. }
    lra.
  - apply lt_false in E. assert (Hx : x == 0) by lra.
    rewrite (nearest_compat (x * Num.pow10 f) 0)
      by (rewrite Hx; apply Qmult_0_l).
    unfold Qdiv. change (inject_Z (Num.nearest 0)) with 0.
    rewrite Qmult_0_l. apply Qle_refl.
Qed.

(** Rounding never reorders two numbers. *)
Lemma toFixed_mono (f : nat) (x y : Q) :
  x <= y -> Num.toFixed f x <= Num.toFixed f y.
Proof.
  intros H.
  assert (Hp : 0 <= Num.pow10 f) by apply Qlt_le_weak, pow10_pos.
  destruct (Qlt_le_dec x 0) as [Hx | Hx]; destruct (Qlt_le_dec y 0) as [Hy | Hy].
  - unfold Num.toFixed.
    apply lt_true in Hx, Hy. rewrite Hx, Hy.
    apply Qopp_le_compat, scaled_mono, nearest_mono.
    apply Qmult_le_compat_r; [lra | exact Hp].
  - apply Qle_trans with 0;
      [apply toFixed_nonpos; lra | apply toFixed_nonneg; exact Hy].
  - lra.
  - unfold Num.toFixed.
    apply lt_false in Hx, Hy. rewrite Hx, Hy.
    apply scaled_mono, nearest_mono.
    apply Qmult_le_compat_r; [exact H | exact Hp].
Qed.

Lemma toFixed_zero (f : nat) : Num.toFixed f 0 == 0.
Proof.
  apply Qle_antisym; [apply toFixed_nonpos | apply toFixed_nonneg]; apply Qle_refl.
Qed.


End NumFacts.

(** ** The loop of calculateWIS *)

Section Loop.

Variable observed : Q.

Lemma sum_underprediction_cons (iv : Interval) (l : list Interval) :
  sum_underprediction observed (iv :: l)
  == (if observed <? lower iv then underprediction_term observed iv else 0)
     + sum_underprediction observed l.
Proof.
  unfold sum_underprediction. cbn [filter].
  change (below observed iv) with (observed <? lower iv).
  destruct (observed <? lower iv); [reflexivity | ring].
Qed.

Lemma sum_overprediction_cons (iv : Interval) (l : list Interval) :
  sum_overprediction observed (iv :: l)
  == (if observed >? upper iv then overprediction_term observed iv else 0)
     + sum_overprediction observed l.
Proof.
  unfold sum_overprediction. cbn [filter].
  change (above observed iv) with (observed >? upper iv).
  destruct (observed >? upper iv); [reflexivity | ring].
Qed.

Lemma sum_dispersion_cons (iv : Interval) (l : list Interval) :
  sum_dispersion (iv :: l) == dispersion_term iv + sum_dispersion l.
Proof. reflexivity. Qed.

Lemma loop_dispersion (l : list Interval) (a : Acc) :
  acc_dispersion (wis_loop observed l a) == acc_dispersion a + sum_dispersion l.
Proof.
  revert a. induction l as [| iv l IH]; intros a.
  - unfold sum_dispersion; simpl. ring.
  - change (wis_loop observed (iv :: l) a)
      with (wis_loop observed l (wis_step observed a iv)).
    rewrite IH, sum_dispersion_cons. cbn [wis_step acc_dispersion].
    fold (dispersion_term iv). ring.
Qed.

Lemma loop_underprediction (l : list Interval) (a : Acc) :
  acc_underprediction (wis_loop observed l a)
  == acc_underprediction a + sum_underprediction observed l.
Proof.
  revert a. induction l as [| iv l IH]; intros a.
  - unfold sum_underprediction; simpl. ring.
  - change (wis_loop observed (iv :: l) a)
      with (wis_loop observed l (wis_step observed a iv)).
    rewrite IH, sum_underprediction_cons. cbn [wis_step acc_underprediction].
    fold (underprediction_term observed iv).
    destruct (observed <? lower iv); ring.
Qed.

Lemma loop_overprediction (l : list Interval) (a : Acc) :
  acc_overprediction (wis_loop observed l a)
  == acc_overprediction a + sum_overprediction observed l.
Proof.
  revert a. induction l as [| iv l IH]; intros a.
  - unfold sum_overprediction; simpl. ring.
  - change (wis_loop observed (iv :: l) a)
      with (wis_loop observed l (wis_step observed a iv)).
    rewrite IH, sum_overprediction_cons. cbn [wis_step acc_overprediction].
    fold (overprediction_term observed iv).
    destruct (observed >? upper iv); ring.
Qed.

Lemma loop_total (l : list Interval) (e : Q) :
  wis_total_raw (wis_loop observed l acc0) e
  == sum_dispersion l + sum_overprediction observed l
     + sum_underprediction observed l + e * (1 # 2).
Proof.
  unfold wis_total_raw.
  rewrite loop_dispersion, loop_overprediction, loop_underprediction.
  simpl. ring.
Qed.

(** Signs of the three sums over well-formed intervals. *)
Lemma sum_dispersion_nonneg (l : list Interval) :
  Forall well_formed l -> 0 <= sum_dispersion l.
Proof.
  induction 1 as [| iv l [Hb [Ha _]] _ IH]; [apply Qle_refl |].
  rewrite sum_dispersion_cons.
  assert (0 <= dispersion_term iv).
  { unfold dispersion_term. apply Qmult_le_0_compat; [lra |].
    apply Qle_shift_div_l; lra. }
  lra.
Qed.

Lemma sum_underprediction_nonneg (l : list Interval) :
  Forall well_formed l -> 0 <= sum_underprediction observed l.
Proof.
  induction 1 as [| iv l [_ [Ha _]] _ IH]; [apply Qle_refl |].
  rewrite sum_underprediction_cons.
  destruct (observed <? lower iv) eqn:E; [| lra].
  apply lt_true in E.
  assert (0 <= underprediction_term observed iv).
  { unfold underprediction_term. apply Qmult_le_0_compat; lra. }
  lra.
Qed.

Lemma sum_overprediction_nonneg (l : list Interval) :
  Forall well_formed l -> 0 <= sum_overprediction observed l.
Proof.
  induction 1 as [| iv l [_ [Ha _]] _ IH]; [apply Qle_refl |].
  rewrite sum_overprediction_cons.
  destruct (observed >? upper iv) eqn:E; [| lra].
  apply gt_true in E.
  assert (0 <= overprediction_term observed iv).
  { unfold overprediction_term. apply Qmult_le_0_compat; lra. }
  lra.
Qed.

End Loop.

(** ** calculateWIS: the formula *)











(** ** Replacing one interval *)

Section Replace.

Variable observed : Q.






End Replace.




(** Outside the interval the total can go down as the interval widens:
    with [observed = median = 20], widening [0, 8] to [0, 10] trades a
    dispersion gain of [0.5] for an overprediction loss of [1]. *)
Example widening_can_lower_total :
  WIS.total (calculateWIS 20 20 [iv_wide]) == 8
  /\ WIS.total (calculateWIS 20 20 (replace_at 0 iv_widest [iv_wide])) == 75 # 10.
Proof. split; reflexivity. Qed.

(** ** calculatePIS *)




(** C3.  For every observed value and every [lower <= upper], exactly one
    of [outsideLower], [outsideUpper], [inside] is true in the result of
    [calculatePIS]. *)
Theorem calculatePIS_flags_partition (observed lower upper alpha : Q) :
  lower <= upper ->
  let r := calculatePIS observed lower upper alpha in
  exactly_one (PIS.outsideLower r) (PIS.outsideUpper r) (PIS.inside r).
Proof.
  intros Hb r. unfold exactly_one. subst r. cbn [calculatePIS PIS.outsideLower
    PIS.outsideUpper PIS.inside].
  destruct (Qlt_le_dec observed lower) as [Hl | Hl].
  - left. repeat split.
    + now apply lt_true.
    + apply gt_false. lra.
    + apply andb_false_iff. left.
      apply not_true_iff_false. rewrite ge_true. lra.
  - right. destruct (Qlt_le_dec upper observed) as [Hu | Hu].
    + left. repeat split.
      * now apply lt_false.
      * now apply gt_true.
      * apply andb_false_iff. right.
        apply not_true_iff_false. rewrite le_true. lra.
    + right. repeat split.
      * now apply lt_false.
      * now apply gt_false.
      * apply andb_true_iff. split; [now apply ge_true | now apply le_true].
Qed.

Lemma calculatePIS_flags_partition_witness :
  1600 <= 2400
  /\ exactly_one (PIS.outsideLower (calculatePIS 1500 1600 2400 (5 # 100)))
       (PIS.outsideUpper (calculatePIS 1500 1600 2400 (5 # 100)))
       (PIS.inside (calculatePIS 1500 1600 2400 (5 # 100))).
Proof.
  assert (H : 1600 <= 2400) by (intro C; discriminate C).
  split; [exact H |].
  exact (calculatePIS_flags_partition 1500 1600 2400 (5 # 100) H).
Defined.

(** C7.  For every [lower <= upper] and [alpha > 0], an observation equal
    to [lower] or equal to [upper] is classified inside: [inside = true],
    [outsideLower = false], [outsideUpper = false] and [penalty = 0]. *)
Theorem calculatePIS_bounds_inside (observed lower upper alpha : Q) :
  lower <= upper -> 0 < alpha ->
  observed == lower \/ observed == upper ->
  let r := calculatePIS observed lower upper alpha in
  PIS.inside r = true /\ PIS.outsideLower r = false
  /\ PIS.outsideUpper r = false /\ PIS.penalty r == 0.
Proof.
  intros Hb _ Ho r.
  assert (Hl : (observed <? lower) = false) by (apply lt_false; lra).
  assert (Hu : (observed >? upper) = false) by (apply gt_false; lra).
  subst r. cbn [calculatePIS PIS.outsideLower PIS.outsideUpper PIS.inside
    PIS.penalty].
  unfold pis_penalty. rewrite Hl, Hu.
  split; [| split; [reflexivity | split; [reflexivity | apply toFixed_zero]]].
  apply andb_true_iff. split; [apply ge_true | apply le_true]; lra.
Qed.

Lemma calculatePIS_bounds_inside_witness :
  1600 <= 2400 /\ 0 < 5 # 100
  /\ (2400 == 1600 \/ 2400 == 2400)
  /\ PIS.inside (calculatePIS 2400 1600 2400 (5 # 100)) = true
  /\ PIS.outsideLower (calculatePIS 2400 1600 2400 (5 # 100)) = false
  /\ PIS.outsideUpper (calculatePIS 2400 1600 2400 (5 # 100)) = false
  /\ PIS.penalty (calculatePIS 2400 1600 2400 (5 # 100)) == 0.
Proof.
  assert (H1 : 1600 <= 2400) by (intro C; discriminate C).
  assert (H2 : 0 < 5 # 100) by reflexivity.
  assert (H3 : 2400 == 1600 \/ 2400 == 2400) by (right; reflexivity).
  do 3 (split; [assumption |]).
  exact (calculatePIS_bounds_inside 2400 1600 2400 (5 # 100) H1 H2 H3).
Defined.

(** ** Coverage *)

(** C8.  Over any list of 20 hit/miss flags of which exactly 19 are hits,
    the coverage (hits over forecasts, times 100) is 95, and it is printed
    as 95. *)
Theorem coverage_19_of_20 (hits : list bool) :
  length hits = 20%nat -> hitCount hits = 19%nat ->
  coverage hits == 95 /\ cov hits 20 == 95.
Proof.
  intros Hn Hh. unfold coverage, cov. rewrite Hn, Hh. split; reflexivity.
Qed.

Lemma coverage_19_of_20_witness :
  length hits_19_of_20 = 20%nat /\ hitCount hits_19_of_20 = 19%nat
  /\ coverage hits_19_of_20 == 95 /\ cov hits_19_of_20 20 == 95.
Proof.
  assert (H1 : length hits_19_of_20 = 20%nat) by reflexivity.
  assert (H2 : hitCount hits_19_of_20 = 19%nat) by reflexivity.
  do 2 (split; [assumption |]).
  exact (coverage_19_of_20 hits_19_of_20 H1 H2).
Defined.

(** ** Concrete runs *)

Example calculateWIS_demo :
  calculateWIS 2000 2000 wis_demo
  = WIS.mkResult (200 # 10) (200 # 10) (0 # 10) (0 # 10) (0 # 10).
Proof. vm_compute. reflexivity. Qed.

Example calculatePIS_demo :
  calculatePIS 1500 1600 2400 (5 # 100)
  = PIS.mkResult (8000 # 10) (40000 # 10) (48000 # 10) true false false.
Proof. vm_compute. reflexivity. Qed.

Example toFixed_tie : Num.toFixed 1 (1 # 4) = 3 # 10.
Proof. reflexivity. Qed.

Example toFixed_negative : Num.toFixed 1 (- (26 # 100)) = (-3) # 10.
Proof. reflexivity. Qed.

(** ** More on calculatePIS *)

Section PenaltyFacts.

Variables observed lower upper alpha : Q.
Hypothesis alpha_pos : 0 < alpha.

Lemma two_over_alpha_pos : 0 < 2 / alpha.
Proof. apply Qlt_shift_div_l; [exact alpha_pos | lra]. Qed.

Lemma pis_penalty_nonneg : 0 <= pis_penalty observed lower upper alpha.
Proof.
  pose proof two_over_alpha_pos as Hk. unfold pis_penalty.
  destruct (observed <? lower) eqn:El.
  - apply lt_true in El. apply Qmult_le_0_compat; lra.
  - destruct (observed >? upper) eqn:Eu; [| apply Qle_refl].
    apply gt_true in Eu. apply Qmult_le_0_compat; lra.
Qed.


End PenaltyFacts.

(** X1.  With [alpha > 0] the penalty returned by [calculatePIS] is never
    negative and the total is never below the width. *)
Theorem calculatePIS_total_at_least_width (observed lower upper alpha : Q) :
  0 < alpha ->
  let r := calculatePIS observed lower upper alpha in
  0 <= PIS.penalty r /\ PIS.width r <= PIS.total r.
Proof.
  intros Ha r. subst r. cbn [calculatePIS PIS.penalty PIS.width PIS.total].
  pose proof (pis_penalty_nonneg observed lower upper alpha Ha) as Hp.
  split; [now apply toFixed_nonneg | apply toFixed_mono; lra].
Qed.

Lemma calculatePIS_total_at_least_width_witness :
  0 < 5 # 100
  /\ 0 <= PIS.penalty (calculatePIS 1500 1600 2400 (5 # 100))
  /\ PIS.width (calculatePIS 1500 1600 2400 (5 # 100))
     <= PIS.total (calculatePIS 1500 1600 2400 (5 # 100)).
Proof.
  assert (H : 0 < 5 # 100) by reflexivity.
  split; [exact H |].
  exact (calculatePIS_total_at_least_width 1500 1600 2400 (5 # 100) H).
Defined.



Lemma two_over_alpha_antitone (a1 a2 : Q) :
  0 < a1 -> a1 <= a2 -> 2 / a2 <= 2 / a1.
Proof.
  intros H1 H12.
  assert (H2 : 0 < a2) by lra.
  apply Qle_shift_div_r; [exact H2 |].
  apply Qle_trans with ((2 / a1) * a1).
  - assert (E : (2 / a1) * a1 == 2) by (field; lra). rewrite E. apply Qle_refl.
  - rewrite !(Qmult_comm (2 / a1)). apply Qmult_le_compat_r; [exact H12 |].
    apply Qlt_le_weak, two_over_alpha_pos, H1.
Qed.

Lemma pis_penalty_antitone_alpha (observed lower upper a1 a2 : Q) :
  0 < a1 -> a1 <= a2 ->
  pis_penalty observed lower upper a2 <= pis_penalty observed lower upper a1.
Proof.
  intros H1 H12. pose proof (two_over_alpha_antitone a1 a2 H1 H12) as Hk.
  unfold pis_penalty.
  destruct (observed <? lower) eqn:El.
  - apply lt_true in El. apply Qmult_le_compat_r; lra.
  - destruct (observed >? upper) eqn:Eu; [| apply Qle_refl].
    apply gt_true in Eu. apply Qmult_le_compat_r; lra.
Qed.

(** X3.  The same miss costs more at a smaller significance level: for
    [0 < alpha1 <= alpha2] the penalty and the total returned at [alpha1] are
    at least those returned at [alpha2]. *)
Theorem calculatePIS_harsher_at_smaller_alpha
  (observed lower upper alpha1 alpha2 : Q) :
  0 < alpha1 -> alpha1 <= alpha2 ->
  let r1 := calculatePIS observed lower upper alpha1 in
  let r2 := calculatePIS observed lower upper alpha2 in
  PIS.penalty r2 <= PIS.penalty r1 /\ PIS.total r2 <= PIS.total r1.
Proof.
  intros H1 H12 r1 r2. subst r1 r2. cbn [calculatePIS PIS.penalty PIS.total].
  pose proof (pis_penalty_antitone_alpha observed lower upper _ _ H1 H12) as Hp.
  split; apply toFixed_mono; lra.
Qed.

Lemma calculatePIS_harsher_at_smaller_alpha_witness :
  0 < 5 # 100 /\ 5 # 100 <= 5 # 10
  /\ PIS.penalty (calculatePIS 1500 1600 2400 (5 # 10))
     <= PIS.penalty (calculatePIS 1500 1600 2400 (5 # 100))
  /\ PIS.total (calculatePIS 1500 1600 2400 (5 # 10))
     <= PIS.total (calculatePIS 1500 1600 2400 (5 # 100)).
Proof.
  assert (H1 : 0 < 5 # 100) by reflexivity.
  assert (H2 : 5 # 100 <= 5 # 10) by (intro C; discriminate C).
  do 2 (split; [assumption |]).
  exact (calculatePIS_harsher_at_smaller_alpha 1500 1600 2400 _ _ H1 H2).
Defined.

Lemma pis_penalty_monotone_above (o o' lower upper alpha : Q) :
  0 < alpha -> lower <= upper -> lower <= o -> o <= o' ->
  pis_penalty o lower upper alpha <= pis_penalty o' lower upper alpha.
Proof.
  intros Ha Hb Hl Hoo. pose proof (two_over_alpha_pos alpha Ha) as Hk.
  unfold pis_penalty.
  assert (E1 : (o <? lower) = false) by (apply lt_false; lra).
  assert (E2 : (o' <? lower) = false) by (apply lt_false; lra).
  rewrite E1, E2.
  destruct (o >? upper) eqn:Eo.
  - apply gt_true in Eo.
    assert (E3 : (o' >? upper) = true) by (apply gt_true; lra).
    rewrite E3. rewrite !(Qmult_comm (2 / alpha)).
    apply Qmult_le_compat_r; lra.
  - destruct (o' >? upper) eqn:Eo'; [| apply Qle_refl].
    apply gt_true in Eo'. apply Qmult_le_0_compat; lra.
Qed.

Lemma pis_penalty_monotone_below (o o' lower upper alpha : Q) :
  0 < alpha -> lower <= upper -> o <= upper -> o' <= o ->
  pis_penalty o lower upper alpha <= pis_penalty o' lower upper alpha.
Proof.
  intros Ha Hb Hu Hoo. pose proof (two_over_alpha_pos alpha Ha) as Hk.
  unfold pis_penalty.
  assert (E1 : (o >? upper) = false) by (apply gt_false; lra).
  destruct (o <? lower) eqn:Eo.
  - apply lt_true in Eo.
    assert (E3 : (o' <? lower) = true) by (apply lt_true; lra).
    rewrite E3. rewrite !(Qmult_comm (2 / alpha)).
    apply Qmult_le_compat_r; lra.
  - rewrite E1. apply lt_false in Eo.
    destruct (o' <? lower) eqn:Eo'.
    + apply lt_true in Eo'. apply Qmult_le_0_compat; lra.
    + assert (E4 : (o' >? upper) = false) by (apply gt_false; lra).
      rewrite E4. apply Qle_refl.
Qed.

(** X4.  For [lower <= upper] and [alpha > 0], moving the observation away
    from the interval never lowers the returned penalty or total: upwards
    from any point at or above [lower], downwards from any point at or below
    [upper]. *)
Theorem calculatePIS_penalty_grows_with_miss
  (o o' lower upper alpha : Q) :
  0 < alpha -> lower <= upper ->
  (lower <= o /\ o <= o') \/ (o <= upper /\ o' <= o) ->
  let r := calculatePIS o lower upper alpha in
  let r' := calculatePIS o' lower upper alpha in
  PIS.penalty r <= PIS.penalty r' /\ PIS.total r <= PIS.total r'.
Proof.
  intros Ha Hb Hdir r r'. subst r r'. cbn [calculatePIS PIS.penalty PIS.total].
  assert (Hp : pis_penalty o lower upper alpha
               <= pis_penalty o' lower upper alpha).
  { destruct Hdir as [[H1 H2] | [H1 H2]].
    - now apply pis_penalty_monotone_above.
    - now apply pis_penalty_monotone_below. }
  split; apply toFixed_mono; lra.
Qed.

Lemma calculatePIS_penalty_grows_with_miss_witness :
  0 < 5 # 100 /\ 1600 <= 2400
  /\ ((1600 <= 2500 /\ 2500 <= 2600) \/ (2500 <= 2400 /\ 2600 <= 2500))
  /\ PIS.penalty (calculatePIS 2500 1600 2400 (5 # 100))
     <= PIS.penalty (calculatePIS 2600 1600 2400 (5 # 100))
  /\ PIS.total (calculatePIS 2500 1600 2400 (5 # 100))
     <= PIS.total (calculatePIS 2600 1600 2400 (5 # 100)).
Proof.
  assert (H1 : 0 < 5 # 100) by reflexivity.
  assert (H2 : 1600 <= 2400) by (intro C; discriminate C).
  assert (H3 : (1600 <= 2500 /\ 2500 <= 2600)
               \/ (2500 <= 2400 /\ 2600 <= 2500)).
  { left. split; intro C; discriminate C. }
  do 3 (split; [assumption |]).
  exact (calculatePIS_penalty_grows_with_miss 2500 2600 1600 2400 _ H1 H2 H3).
Defined.

(** ** More on calculateWIS *)

Section ScoreFacts.

Variable observed : Q.



Lemma sum_overprediction_zero (c : Q) (l : list Interval) :
  Forall (within c) l -> observed <= c -> sum_overprediction observed l == 0.
Proof.
  intros Hl Ho. induction Hl as [| iv l [_ Hu] _ IH]; [reflexivity |].
  rewrite sum_overprediction_cons, IH.
  assert (E : (observed >? upper iv) = false) by (apply gt_false; lra).
  rewrite E. ring.
Qed.

Lemma sum_underprediction_zero (c : Q) (l : list Interval) :
  Forall (within c) l -> c <= observed -> sum_underprediction observed l == 0.
Proof.
  intros Hl Ho. induction Hl as [| iv l [Hlo _] _ IH]; [reflexivity |].
  rewrite sum_underprediction_cons, IH.
  assert (E : (observed <? lower iv) = false) by (apply lt_false; lra).
  rewrite E. ring.
Qed.

End ScoreFacts.

Lemma field_overprediction (observed median : Q) (l : list Interval) :
  WIS.overprediction (calculateWIS observed median l)
  = Num.toFixed 1 (sum_overprediction observed l).
Proof.
  cbn [calculateWIS WIS.overprediction]. apply toFixed_compat.
  rewrite loop_overprediction. simpl. ring.
Qed.

Lemma field_underprediction (observed median : Q) (l : list Interval) :
  WIS.underprediction (calculateWIS observed median l)
  = Num.toFixed 1 (sum_underprediction observed l).
Proof.
  cbn [calculateWIS WIS.underprediction]. apply toFixed_compat.
  rewrite loop_underprediction. simpl. ring.
Qed.

Lemma field_dispersion (observed median : Q) (l : list Interval) :
  WIS.dispersion (calculateWIS observed median l)
  = Num.toFixed 1 (sum_dispersion l).
Proof.
  cbn [calculateWIS WIS.dispersion]. apply toFixed_compat.
  rewrite loop_dispersion. simpl. ring.
Qed.

Lemma field_total (observed median : Q) (l : list Interval) :
  WIS.total (calculateWIS observed median l)
  = Num.toFixed 1
      (sum_dispersion l + sum_overprediction observed l
       + sum_underprediction observed l + Qabs (observed - median) * (1 # 2)).
Proof.
  cbn [calculateWIS WIS.total]. apply toFixed_compat, loop_total.
Qed.

Lemma toFixed_of_zero (f : nat) (x : Q) : x == 0 -> Num.toFixed f x == 0.
Proof.
  intros H. rewrite (toFixed_compat f x 0 H). apply toFixed_zero.
Qed.



(** X6.  When some point [c] lies within every interval, an observation at
    or below [c] gets overprediction 0 and one at or above [c] gets
    underprediction 0: the two penalties never show together. *)
Theorem calculateWIS_one_sided
  (observed median c : Q) (intervals : list Interval) :
  Forall (within c) intervals ->
  let r := calculateWIS observed median intervals in
  (observed <= c -> WIS.overprediction r == 0)
  /\ (c <= observed -> WIS.underprediction r == 0)
  /\ (WIS.overprediction r == 0 \/ WIS.underprediction r == 0).
Proof.
  intros H r. subst r.
  rewrite field_overprediction, field_underprediction.
  assert (H1 : observed <= c -> Num.toFixed 1 (sum_overprediction observed intervals) == 0).
  { intros Ho. now apply toFixed_of_zero, (sum_overprediction_zero observed c). }
  assert (H2 : c <= observed -> Num.toFixed 1 (sum_underprediction observed intervals) == 0).
  { intros Ho. now apply toFixed_of_zero, (sum_underprediction_zero observed c). }
  split; [exact H1 | split; [exact H2 |]].
  destruct (Qlt_le_dec observed c) as [Hc | Hc].
  - left. apply H1. lra.
  - right. apply H2. exact Hc.
Qed.

Lemma calculateWIS_one_sided_witness :
  Forall (within 2) [iv_half]
  /\ let r := calculateWIS 4 2 [iv_half] in
     (4 <= 2 -> WIS.overprediction r == 0)
     /\ (2 <= 4 -> WIS.underprediction r == 0)
     /\ (WIS.overprediction r == 0 \/ WIS.underprediction r == 0).
Proof.
  assert (H : Forall (within 2) [iv_half]).
  { constructor; [| constructor]. split; intro C; discriminate C. }
  split; [exact H | exact (calculateWIS_one_sided 4 2 2 [iv_half] H)].
Defined.

(** X7.  When the observation lies within every interval and equals the
    median, overprediction, underprediction and absError are 0 and the total
    returned is the dispersion returned. *)
Theorem calculateWIS_on_target
  (observed median : Q) (intervals : list Interval) :
  Forall (within observed) intervals -> observed == median ->
  let r := calculateWIS observed median intervals in
  WIS.overprediction r == 0 /\ WIS.underprediction r == 0
  /\ WIS.absError r == 0 /\ WIS.total r = WIS.dispersion r.
Proof.
  intros H Hm r. subst r.
  rewrite field_overprediction, field_underprediction, field_total,
    field_dispersion.
  pose proof (sum_overprediction_zero observed observed intervals H
                (Qle_refl _)) as Ho.
  pose proof (sum_underprediction_zero observed observed intervals H
                (Qle_refl _)) as Hu.
  assert (He : Qabs (observed - median) == 0).
  { assert (E : observed - median == 0) by lra. rewrite E. reflexivity. }
  split; [now apply toFixed_of_zero |].
  split; [now apply toFixed_of_zero |].
  split; [cbn [calculateWIS WIS.absError]; now apply toFixed_of_zero |].
  apply toFixed_compat. rewrite Ho, Hu, He. ring.
Qed.

Lemma calculateWIS_on_target_witness :
  Forall (within 2) [iv_half] /\ 2 == 2
  /\ let r := calculateWIS 2 2 [iv_half] in
     WIS.overprediction r == 0 /\ WIS.underprediction r == 0
     /\ WIS.absError r == 0 /\ WIS.total r = WIS.dispersion r.
Proof.
  assert (H : Forall (within 2) [iv_half]).
  { constructor; [| constructor]. split; intro C; discriminate C. }
  assert (H2 : 2 == 2) by reflexivity.
  do 2 (split; [assumption |]).
  exact (calculateWIS_on_target 2 2 [iv_half] H H2).
Defined.




(** X9.  On intervals with [lower <= upper] and [alpha] in (0,1], the
    total returned by [calculateWIS] is at least each of the dispersion,
    overprediction and underprediction returned. *)
Theorem calculateWIS_total_dominates
  (observed median : Q) (intervals : list Interval) :
  Forall well_formed intervals ->
  let r := calculateWIS observed median intervals in
  WIS.dispersion r <= WIS.total r
  /\ WIS.overprediction r <= WIS.total r
  /\ WIS.underprediction r <= WIS.total r.
Proof.
  intros H r. subst r.
  rewrite field_total, field_dispersion, field_overprediction,
    field_underprediction.
  pose proof (sum_dispersion_nonneg intervals H) as Hd.
  pose proof (sum_overprediction_nonneg observed intervals H) as Ho.
  pose proof (sum_underprediction_nonneg observed intervals H) as Hu.
  pose proof (Qabs_nonneg (observed - median)) as He.
  repeat apply conj; apply toFixed_mono; lra.
Qed.

Lemma calculateWIS_total_dominates_witness :
  Forall well_formed [iv_half]
  /\ let r := calculateWIS 4 2 [iv_half] in
     WIS.dispersion r <= WIS.total r
     /\ WIS.overprediction r <= WIS.total r
     /\ WIS.underprediction r <= WIS.total r.
Proof.
  assert (H : Forall well_formed [iv_half]).
  { constructor; [| constructor].
    split; [intro C; discriminate C | split; [reflexivity | intro C; discriminate C]]. }
  split; [exact H | exact (calculateWIS_total_dominates 4 2 [iv_half] H)].
Defined.

Section ObservedMoves.

Variables o o' : Q.
Hypothesis o_le : o <= o'.

Lemma sum_overprediction_monotone (l : list Interval) :
  Forall (fun iv => 0 <= alpha iv) l ->
  sum_overprediction o l <= sum_overprediction o' l.
Proof.
  induction 1 as [| iv l Ha _ IH]; [apply Qle_refl |].
  rewrite !sum_overprediction_cons. unfold overprediction_term.
  destruct (o >? upper iv) eqn:E; destruct (o' >? upper iv) eqn:E'.
  - assert ((o - upper iv) * alpha iv <= (o' - upper iv) * alpha iv)
      by (apply Qmult_le_compat_r; lra).
    lra.
  - apply gt_true in E. apply gt_false in E'. lra.
  - apply gt_true in E'.
    assert (0 <= (o' - upper iv) * alpha iv)
      by (apply Qmult_le_0_compat; lra).
    lra.
  - lra.
Qed.

Lemma sum_underprediction_antitone (l : list Interval) :
  Forall (fun iv => 0 <= alpha iv) l ->
  sum_underprediction o' l <= sum_underprediction o l.
Proof.
  induction 1 as [| iv l Ha _ IH]; [apply Qle_refl |].
  rewrite !sum_underprediction_cons. unfold underprediction_term.
  destruct (o <? lower iv) eqn:E; destruct (o' <? lower iv) eqn:E'.
  - assert ((lower iv - o') * alpha iv <= (lower iv - o) * alpha iv)
      by (apply Qmult_le_compat_r; lra).
    lra.
  - apply lt_true in E.
    assert (0 <= (lower iv - o) * alpha iv)
      by (apply Qmult_le_0_compat; lra).
    lra.
  - apply lt_false in E. apply lt_true in E'. lra.
  - lra.
Qed.

End ObservedMoves.

(** X10.  With no negative [alpha], raising the observation never lowers
    the overprediction returned by [calculateWIS] and never raises the
    underprediction returned. *)
Theorem calculateWIS_monotone_in_observed
  (o o' median median' : Q) (intervals : list Interval) :
  Forall (fun iv => 0 <= alpha iv) intervals -> o <= o' ->
  WIS.overprediction (calculateWIS o median intervals)
  <= WIS.overprediction (calculateWIS o' median' intervals)
  /\ WIS.underprediction (calculateWIS o' median' intervals)
     <= WIS.underprediction (calculateWIS o median intervals).
Proof.
  intros Ha Ho. rewrite !field_overprediction, !field_underprediction.
  split; apply toFixed_mono.
  - now apply sum_overprediction_monotone.
  - now apply sum_underprediction_antitone.
Qed.

Lemma calculateWIS_monotone_in_observed_witness :
  Forall (fun iv => 0 <= alpha iv) [iv_half] /\ 4 <= 5
  /\ WIS.overprediction (calculateWIS 4 2 [iv_half])
     <= WIS.overprediction (calculateWIS 5 2 [iv_half])
  /\ WIS.underprediction (calculateWIS 5 2 [iv_half])
     <= WIS.underprediction (calculateWIS 4 2 [iv_half]).
Proof.
  assert (H : Forall (fun iv => 0 <= alpha iv) [iv_half]).
  { constructor; [intro C; discriminate C | constructor]. }
  assert (H2 : 4 <= 5) by (intro C; discriminate C).
  do 2 (split; [assumption |]).
  exact (calculateWIS_monotone_in_observed 4 5 2 2 [iv_half] H H2).
Defined.

(** ** WISModule *)

Section Sliders.

Import WISModule.

Variable width : Q.
Hypothesis width_nonneg : 0 <= width.

Lemma scale_nonneg : 0 <= scale width.
Proof. unfold scale. apply Qle_shift_div_l; lra. Qed.

Lemma bounds_nested :
  lower (pi95 width) <= lower (pi80 width)
  /\ lower (pi80 width) <= lower (pi50 width)
  /\ lower (pi50 width) <= median
  /\ median <= upper (pi50 width)
  /\ upper (pi50 width) <= upper (pi80 width)
  /\ upper (pi80 width) <= upper (pi95 width).
Proof.
  pose proof scale_nonneg as Hs. cbn [pi95 pi80 pi50 lower upper].
  repeat apply conj; lra.
Qed.

Lemma intervals_well_formed : Forall well_formed (intervals width).
Proof.
  pose proof scale_nonneg as Hs. unfold intervals, well_formed.
  repeat constructor; cbn [pi95 pi80 pi50 lower upper alpha]; lra.
Qed.


Lemma in95_true (observed : Q) :
  in95 observed width = true <-> within observed (pi95 width).
Proof.
  unfold in95, within. rewrite andb_true_iff, ge_true, le_true. reflexivity.
Qed.

Lemma in50_true (observed : Q) :
  in50 observed width = true <-> within observed (pi50 width).
Proof.
  unfold in50, within. rewrite andb_true_iff, ge_true, le_true. reflexivity.
Qed.

Lemma in95_false (observed : Q) :
  in95 observed width = false
  <-> observed < lower (pi95 width) \/ upper (pi95 width) < observed.
Proof.
  rewrite <- not_true_iff_false, in95_true. unfold within. split.
  - intros H. destruct (Qlt_le_dec observed (lower (pi95 width))) as [C | C];
      [now left |].
    destruct (Qlt_le_dec (upper (pi95 width)) observed) as [D | D];
      [now right |].
    exfalso. apply H. split; assumption.
  - intros [C | C] [H1 H2]; lra.
Qed.

Lemma in50_false (observed : Q) :
  in50 observed width = false
  <-> observed < lower (pi50 width) \/ upper (pi50 width) < observed.
Proof.
  rewrite <- not_true_iff_false, in50_true. unfold within. split.
  - intros H. destruct (Qlt_le_dec observed (lower (pi50 width))) as [C | C];
      [now left |].
    destruct (Qlt_le_dec (upper (pi50 width)) observed) as [D | D];
      [now right |].
    exfalso. apply H. split; assumption.
  - intros [C | C] [H1 H2]; lra.
Qed.

Lemma in50_in95 (observed : Q) :
  in50 observed width = true -> in95 observed width = true.
Proof.
  rewrite in50_true, in95_true. unfold within.
  pose proof bounds_nested as [H1 [H2 [_ [_ [H5 H6]]]]]. intros [Hl Hu].
  split; lra.
Qed.

(** The regions of the scale and the status line of each. *)
Lemma status_below (observed : Q) :
  observed < lower (pi95 width) -> status observed width = [Below95].
Proof.
  intros H. pose proof bounds_nested as [H1 [H2 [H3 [H4 [H5 H6]]]]].
  assert (E95 : in95 observed width = false) by (apply in95_false; now left).
  assert (El : (observed <? lower (pi95 width)) = true) by now apply lt_true.
  assert (Eu : (observed >? upper (pi95 width)) = false)
    by (apply gt_false; lra).
  unfold status. rewrite E95, El, Eu. reflexivity.
Qed.

Lemma status_above (observed : Q) :
  upper (pi95 width) < observed -> status observed width = [Above95].
Proof.
  intros H. pose proof bounds_nested as [H1 [H2 [H3 [H4 [H5 H6]]]]].
  assert (E95 : in95 observed width = false) by (apply in95_false; now right).
  assert (El : (observed <? lower (pi95 width)) = false)
    by (apply lt_false; lra).
  assert (Eu : (observed >? upper (pi95 width)) = true) by now apply gt_true.
  unfold status. rewrite E95, El, Eu. reflexivity.
Qed.

Lemma status_inner (observed : Q) :
  within observed (pi50 width) -> status observed width = [InsideAll].
Proof.
  intros H. apply in50_true in H. pose proof (in50_in95 observed H) as H95.
  unfold status. rewrite H, H95. reflexivity.
Qed.

Lemma status_between (observed : Q) :
  within observed (pi95 width) -> ~ within observed (pi50 width) ->
  status observed width = [Within95Outside50].
Proof.
  intros H95 H50. apply in95_true in H95.
  rewrite <- in50_true in H50. apply not_true_iff_false in H50.
  unfold status. rewrite H95, H50. reflexivity.
Qed.

Lemma within_dec (observed : Q) (iv : Interval) :
  within observed iv \/ observed < lower iv \/ upper iv < observed.
Proof.
  unfold within.
  destruct (Qlt_le_dec observed (lower iv)); [now right; left |].
  destruct (Qlt_le_dec (upper iv) observed); [now right; right |].
  left. split; assumption.
Qed.


End Sliders.


(** X11.  For every width that is not negative, the three intervals
    [WISModule] builds are nested around the median, 95% outermost, and each
    has [lower <= upper] and [alpha] in (0,1]. *)
Theorem WISModule_intervals_nested (width : Q) :
  0 <= width ->
  Forall well_formed (WISModule.intervals width)
  /\ lower (WISModule.pi95 width) <= lower (WISModule.pi80 width)
  /\ lower (WISModule.pi80 width) <= lower (WISModule.pi50 width)
  /\ lower (WISModule.pi50 width) <= WISModule.median
  /\ WISModule.median <= upper (WISModule.pi50 width)
  /\ upper (WISModule.pi50 width) <= upper (WISModule.pi80 width)
  /\ upper (WISModule.pi80 width) <= upper (WISModule.pi95 width).
Proof.
  intros H. split; [now apply intervals_well_formed | now apply bounds_nested].
Qed.

Lemma WISModule_intervals_nested_witness :
  0 <= 100
  /\ Forall well_formed (WISModule.intervals 100)
  /\ lower (WISModule.pi95 100) <= lower (WISModule.pi80 100)
  /\ lower (WISModule.pi80 100) <= lower (WISModule.pi50 100)
  /\ lower (WISModule.pi50 100) <= WISModule.median
  /\ WISModule.median <= upper (WISModule.pi50 100)
  /\ upper (WISModule.pi50 100) <= upper (WISModule.pi80 100)
  /\ upper (WISModule.pi80 100) <= upper (WISModule.pi95 100).
Proof.
  assert (H : 0 <= 100) by (intro C; discriminate C).
  split; [exact H | exact (WISModule_intervals_nested 100 H)].
Defined.

(** X12.  For every width that is not negative and every observation,
    [WISModule] shows exactly one of its four status lines: "below" when the
    observation is under the 95% lower bound, "above" when it is over the 95%
    upper bound, "inside all" when it is within the 50% interval, and
    "within 95% but outside 50%" otherwise. *)
Theorem WISModule_one_status_line (observed width : Q) :
  0 <= width ->
  (observed < lower (WISModule.pi95 width)
   /\ WISModule.status observed width = [WISModule.Below95])
  \/ (upper (WISModule.pi95 width) < observed
      /\ WISModule.status observed width = [WISModule.Above95])
  \/ (within observed (WISModule.pi50 width)
      /\ WISModule.status observed width = [WISModule.InsideAll])
  \/ (within observed (WISModule.pi95 width)
      /\ ~ within observed (WISModule.pi50 width)
      /\ WISModule.status observed width = [WISModule.Within95Outside50]).
Proof.
  intros Hw.
  destruct (within_dec observed (WISModule.pi95 width)) as [H95 | [Hb | Ha]].
  - destruct (within_dec observed (WISModule.pi50 width)) as [H50 | H50].
    + right; right; left. split; [exact H50 | now apply status_inner].
    + assert (N : ~ within observed (WISModule.pi50 width)).
      { intros [H1 H2]. destruct H50; lra. }
      right; right; right.
      split; [exact H95 | split; [exact N | now apply status_between]].
  - left. split; [exact Hb | now apply status_below].
  - right; left. split; [exact Ha | now apply status_above].
Qed.

Lemma WISModule_one_status_line_witness :
  0 <= 100
  /\ ((2500 < lower (WISModule.pi95 100)
       /\ WISModule.status 2500 100 = [WISModule.Below95])
      \/ (upper (WISModule.pi95 100) < 2500
          /\ WISModule.status 2500 100 = [WISModule.Above95])
      \/ (within 2500 (WISModule.pi50 100)
          /\ WISModule.status 2500 100 = [WISModule.InsideAll])
      \/ (within 2500 (WISModule.pi95 100)
          /\ ~ within 2500 (WISModule.pi50 100)
          /\ WISModule.status 2500 100 = [WISModule.Within95Outside50])).
Proof.
  assert (H : 0 <= 100) by (intro C; discriminate C).
  split; [exact H | exact (WISModule_one_status_line 2500 100 H)].
Defined.





Lemma toPercent_affine (v : Q) :
  WISModule.toPercent v == (v - 1200) * (1 # 16).
Proof.
  unfold WISModule.toPercent, WISModule.minVal, WISModule.maxVal.
  assert (E : 1 # 16 == 1 / 16) by reflexivity. rewrite E. field.
Qed.

(** X14.  In [WISModule], for every width from 0 to 200 (the slider gives
    30 to 150) the three bands lie on the scale: each has
    [0 <= toPercent(lower) <= toPercent(upper) <= 100], so no band has a
    negative CSS width; the median mark sits at 50; and an observation
    between [minVal] and [maxVal] is marked between 0 and 100. *)
Theorem WISModule_marks_on_scale (observed width : Q) :
  0 <= width <= 200 ->
  WISModule.minVal <= observed <= WISModule.maxVal ->
  Forall (fun iv =>
            0 <= WISModule.toPercent (lower iv)
            /\ WISModule.toPercent (lower iv) <= WISModule.toPercent (upper iv)
            /\ WISModule.toPercent (upper iv) <= 100)
         (WISModule.intervals width)
  /\ WISModule.toPercent WISModule.median == 50
  /\ 0 <= WISModule.toPercent observed <= 100.
Proof.
  intros [Hw0 Hw1] [Ho0 Ho1].
  unfold WISModule.minVal in Ho0. unfold WISModule.maxVal in Ho1.
  assert (Hs0 : 0 <= WISModule.scale width) by now apply scale_nonneg.
  assert (Hs1 : WISModule.scale width <= 2).
  { unfold WISModule.scale. apply Qle_shift_div_r; lra. }
  split; [| split].
  - unfold WISModule.intervals.
    repeat constructor; rewrite ?toPercent_affine;
      cbn [WISModule.pi95 WISModule.pi80 WISModule.pi50 lower upper];
      unfold WISModule.median; lra.
  - rewrite toPercent_affine. unfold WISModule.median. reflexivity.
  - rewrite toPercent_affine. split; lra.
Qed.

Lemma WISModule_marks_on_scale_witness :
  0 <= 150 <= 200
  /\ WISModule.minVal <= 2500 <= WISModule.maxVal
  /\ Forall (fun iv =>
               0 <= WISModule.toPercent (lower iv)
               /\ WISModule.toPercent (lower iv)
                  <= WISModule.toPercent (upper iv)
               /\ WISModule.toPercent (upper iv) <= 100)
            (WISModule.intervals 150)
  /\ WISModule.toPercent WISModule.median == 50
  /\ 0 <= WISModule.toPercent 2500 <= 100.
Proof.
  assert (H1 : 0 <= 150 <= 200) by (split; intro C; discriminate C).
  assert (H2 : WISModule.minVal <= 2500 <= WISModule.maxVal)
    by (split; intro C; discriminate C).
  do 2 (split; [assumption |]).
  exact (WISModule_marks_on_scale 2500 150 H1 H2).
Defined.

(** X15.  In [WISModule], for every width that is not negative, the status
    line agrees with the interval-score badges: "below" is shown exactly when
    [pis95.outsideLower] is set, "above" exactly when [pis95.outsideUpper] is
    set, "inside all" exactly when [pis50.inside] is set, and being inside the
    50% interval implies being inside the 95% one. *)
Theorem WISModule_status_matches_badges (observed width : Q) :
  0 <= width ->
  (WISModule.status observed width = [WISModule.Below95]
   <-> PIS.outsideLower (WISModule.pis95 observed width) = true)
  /\ (WISModule.status observed width = [WISModule.Above95]
      <-> PIS.outsideUpper (WISModule.pis95 observed width) = true)
  /\ (WISModule.status observed width = [WISModule.InsideAll]
      <-> PIS.inside (WISModule.pis50 observed width) = true)
  /\ (PIS.inside (WISModule.pis50 observed width) = true ->
      PIS.inside (WISModule.pis95 observed width) = true).
Proof.
  intros Hw.
  change (PIS.outsideLower (WISModule.pis95 observed width))
    with (observed <? lower (WISModule.pi95 width)).
  change (PIS.outsideUpper (WISModule.pis95 observed width))
    with (observed >? upper (WISModule.pi95 width)).
  change (PIS.inside (WISModule.pis50 observed width))
    with (WISModule.in50 observed width).
  change (PIS.inside (WISModule.pis95 observed width))
    with (WISModule.in95 observed width).
  pose proof (bounds_nested width Hw) as [H1 [H2 [H3 [H4 [H5 H6]]]]].
  rewrite lt_true, gt_true, (in50_true width).
  split; [| split; [| split]].
  - split; [| now apply status_below].
    intros E.
    destruct (within_dec observed (WISModule.pi95 width)) as [H | [H | H]];
      [| exact H |].
    + destruct (within_dec observed (WISModule.pi50 width)) as [G | G].
      * rewrite (status_inner width Hw observed G) in E. discriminate E.
      * assert (N : ~ within observed (WISModule.pi50 width))
          by (intros [G1 G2]; destruct G; lra).
        rewrite (status_between width observed H N) in E. discriminate E.
    + rewrite (status_above width Hw observed H) in E. discriminate E.
  - split; [| now apply status_above].
    intros E.
    destruct (within_dec observed (WISModule.pi95 width)) as [H | [H | H]];
      [| | exact H].
    + destruct (within_dec observed (WISModule.pi50 width)) as [G | G].
      * rewrite (status_inner width Hw observed G) in E. discriminate E.
      * assert (N : ~ within observed (WISModule.pi50 width))
          by (intros [G1 G2]; destruct G; lra).
        rewrite (status_between width observed H N) in E. discriminate E.
    + rewrite (status_below width Hw observed H) in E. discriminate E.
  - split; [| now apply status_inner].
    intros E.
    destruct (within_dec observed (WISModule.pi50 width)) as [G | G];
      [exact G |].
    assert (N : ~ within observed (WISModule.pi50 width))
      by (intros [G1 G2]; destruct G; lra).
    destruct (within_dec observed (WISModule.pi95 width)) as [H | [H | H]].
    + rewrite (status_between width observed H N) in E. discriminate E.
    + rewrite (status_below width Hw observed H) in E. discriminate E.
    + rewrite (status_above width Hw observed H) in E. discriminate E.
  - intros G. apply (in50_in95 width Hw). now apply in50_true.
Qed.

Lemma WISModule_status_matches_badges_witness :
  0 <= 100
  /\ (WISModule.status 1500 100 = [WISModule.Below95]
      <-> PIS.outsideLower (WISModule.pis95 1500 100) = true)
  /\ (WISModule.status 1500 100 = [WISModule.Above95]
      <-> PIS.outsideUpper (WISModule.pis95 1500 100) = true)
  /\ (WISModule.status 1500 100 = [WISModule.InsideAll]
      <-> PIS.inside (WISModule.pis50 1500 100) = true)
  /\ (PIS.inside (WISModule.pis50 1500 100) = true ->
      PIS.inside (WISModule.pis95 1500 100) = true).
Proof.
  assert (H : 0 <= 100) by (intro C; discriminate C).
  split; [exact H | exact (WISModule_status_matches_badges 1500 100 H)].
Defined.

(** ** Coverage *)

Lemma hitCount_le (hits : list bool) : (hitCount hits <= length hits)%nat.
Proof.
  unfold hitCount. induction hits as [| [|] hits IH]; simpl; lia.
Qed.

Lemma of_nat_pos (n : nat) : (0 < n)%nat -> 0 < of_nat n.
Proof.
  intros H. unfold of_nat. change 0 with (inject_Z 0). rewrite <- Zlt_Qlt. lia.
Qed.

Lemma of_nat_nonneg (n : nat) : 0 <= of_nat n.
Proof.
  unfold of_nat. change 0 with (inject_Z 0). rewrite <- Zle_Qle. lia.
Qed.

Lemma of_nat_le (a b : nat) : of_nat a <= of_nat b <-> (a <= b)%nat.
Proof. unfold of_nat. rewrite <- Zle_Qle. lia. Qed.

Lemma of_nat_eq (a b : nat) : of_nat a == of_nat b <-> a = b.
Proof. unfold of_nat. rewrite inject_Z_injective. lia. Qed.

Lemma nonempty_length (hits : list bool) : hits <> [] -> (0 < length hits)%nat.
Proof. destruct hits; [congruence | simpl; lia]. Qed.

(** The percentage times the number of forecasts is a hundred times the
    number of hits. *)
Lemma coverage_cross (hits : list bool) :
  hits <> [] ->
  coverage hits * of_nat (length hits) == 100 * of_nat (hitCount hits).
Proof.
  intros H. pose proof (of_nat_pos _ (nonempty_length hits H)) as Hn.
  unfold coverage. field. lra.
Qed.

(** X16.  For a non-empty list of flags the coverage of [CoverageBar] lies
    between 0 and 100; it is 100 exactly when every flag is a hit and 0
    exactly when none is. *)
Theorem coverage_in_range (hits : list bool) :
  hits <> [] ->
  0 <= coverage hits <= 100
  /\ (coverage hits == 100 <-> hitCount hits = length hits)
  /\ (coverage hits == 0 <-> hitCount hits = 0%nat).
Proof.
  intros H.
  pose proof (of_nat_pos _ (nonempty_length hits H)) as Hn.
  pose proof (coverage_cross hits H) as Hc.
  pose proof (proj2 (of_nat_le _ _) (hitCount_le hits)) as Hle.
  pose proof (of_nat_nonneg (hitCount hits)) as Hh.
  set (c := coverage hits) in *. set (n := of_nat (length hits)) in *.
  set (h := of_nat (hitCount hits)) in *.
  assert (Hlo : 0 <= c).
  { destruct (Qlt_le_dec c 0) as [C |]; [| assumption].
    assert (c * n < 0 * n) by (apply Qmult_lt_compat_r; assumption). lra. }
  assert (Hhi : c <= 100).
  { destruct (Qlt_le_dec 100 c) as [C |]; [| assumption].
    assert (100 * n < c * n) by (apply Qmult_lt_compat_r; assumption). lra. }
  split; [split; assumption |]. split.
  - rewrite <- of_nat_eq. fold h n. split.
    + intros E. rewrite E in Hc. lra.
    + intros E. rewrite E in Hc.
      assert (G : (c - 100) * n == 0) by lra.
      apply Qmult_integral in G. destruct G; lra.
  - change 0%nat with (Z.to_nat 0). rewrite <- of_nat_eq. fold h.
    change (of_nat (Z.to_nat 0)) with 0. split.
    + intros E. rewrite E in Hc. lra.
    + intros E. rewrite E in Hc.
      assert (G : c * n == 0) by lra.
      apply Qmult_integral in G. destruct G; lra.
Qed.

Lemma coverage_in_range_witness :
  hits_19_of_20 <> []
  /\ 0 <= coverage hits_19_of_20 <= 100
  /\ (coverage hits_19_of_20 == 100
      <-> hitCount hits_19_of_20 = length hits_19_of_20)
  /\ (coverage hits_19_of_20 == 0 <-> hitCount hits_19_of_20 = 0%nat).
Proof.
  assert (H : hits_19_of_20 <> []) by discriminate.
  split; [exact H | exact (coverage_in_range hits_19_of_20 H)].
Defined.

Lemma coverage_gt (hits : list bool) (k : Z) :
  hits <> [] ->
  inject_Z k < coverage hits
  <-> (k * Z.of_nat (length hits) < 100 * Z.of_nat (hitCount hits))%Z.
Proof.
  intros H.
  pose proof (of_nat_pos _ (nonempty_length hits H)) as Hn.
  rewrite <- (Qmult_lt_r _ _ _ Hn), (coverage_cross hits H).
  unfold of_nat. change 100 with (inject_Z 100).
  rewrite <- !inject_Z_mult, <- Zlt_Qlt. reflexivity.
Qed.

Lemma coverage_lt (hits : list bool) (k : Z) :
  hits <> [] ->
  coverage hits < inject_Z k
  <-> (100 * Z.of_nat (hitCount hits) < k * Z.of_nat (length hits))%Z.
Proof.
  intros H.
  pose proof (of_nat_pos _ (nonempty_length hits H)) as Hn.
  rewrite <- (Qmult_lt_r _ _ _ Hn), (coverage_cross hits H).
  unfold of_nat. change 100 with (inject_Z 100).
  rewrite <- !inject_Z_mult, <- Zlt_Qlt. reflexivity.
Qed.

Lemma isCalibrated_band (hits : list bool) (target : Z) :
  hits <> [] ->
  CoverageModule.isCalibrated hits (inject_Z target) = true
  <-> ((target - 15) * Z.of_nat (length hits) < 100 * Z.of_nat (hitCount hits)
       /\ 100 * Z.of_nat (hitCount hits)
          < (target + 15) * Z.of_nat (length hits))%Z.
Proof.
  intros H. unfold CoverageModule.isCalibrated, Num.abs.
  rewrite lt_true, Qabs_Qlt_condition.
  rewrite <- (coverage_gt hits (target - 15) H).
  rewrite <- (coverage_lt hits (target + 15) H).
  unfold Z.sub. rewrite !inject_Z_plus, inject_Z_opp.
  change (inject_Z 15) with 15. split; intros [A B]; split; lra.
Qed.

(** X17.  For a non-empty list of flags, [CoverageBar] reports a 95% bar
    as well calibrated exactly when more than four fifths of the flags are
    hits, and a 50% bar exactly when the share of hits is strictly between
    35% and 65%. *)
Theorem isCalibrated_thresholds (hits : list bool) :
  hits <> [] ->
  (CoverageModule.isCalibrated hits 95 = true
   <-> (4 * length hits < 5 * hitCount hits)%nat)
  /\ (CoverageModule.isCalibrated hits 50 = true
      <-> (7 * length hits < 20 * hitCount hits
           /\ 20 * hitCount hits < 13 * length hits)%nat).
Proof.
  intros H. pose proof (hitCount_le hits) as Hle. split.
  - change 95 with (inject_Z 95). rewrite (isCalibrated_band hits 95 H). lia.
  - change 50 with (inject_Z 50). rewrite (isCalibrated_band hits 50 H). lia.
Qed.

Lemma isCalibrated_thresholds_witness :
  hits_19_of_20 <> []
  /\ (CoverageModule.isCalibrated hits_19_of_20 95 = true
      <-> (4 * length hits_19_of_20 < 5 * hitCount hits_19_of_20)%nat)
  /\ (CoverageModule.isCalibrated hits_19_of_20 50 = true
      <-> (7 * length hits_19_of_20 < 20 * hitCount hits_19_of_20
           /\ 20 * hitCount hits_19_of_20 < 13 * length hits_19_of_20)%nat).
Proof.
  assert (H : hits_19_of_20 <> []) by discriminate.
  split; [exact H | exact (isCalibrated_thresholds hits_19_of_20 H)].
Defined.

Section Generated.

Variable sin : Q -> Q.
Variables target s : Q.

Lemma generate_loop_map (count i : nat) (hits : list bool) :
  CoverageModule.generate_loop sin target s count i hits
  = hits ++ map (CoverageModule.flag sin target s) (seq i count).
Proof.
  revert i hits. induction count as [| c IH]; intros i hits.
  - simpl. now rewrite app_nil_r.
  - cbn [CoverageModule.generate_loop seq map]. rewrite IH, <- app_assoc.
    reflexivity.
Qed.

Lemma generateCoverage_map (n : nat) :
  CoverageModule.generateCoverage sin n target s
  = map (CoverageModule.flag sin target s) (seq 0 n).
Proof. unfold CoverageModule.generateCoverage. apply generate_loop_map. Qed.

Lemma generateCoverage_length (n : nat) :
  length (CoverageModule.generateCoverage sin n target s) = n.
Proof. now rewrite generateCoverage_map, length_map, length_seq. Qed.

End Generated.

(** X18.  Whatever [Math.sin] returns, [generateCoverage(n, target, s)]
    yields exactly [n] flags, the flag at index [i] depends on [i], [target]
    and [s] only, and a larger [n] keeps the flags already there: the first
    [n] flags of a run with [m >= n] are the run with [n]. *)
Theorem generateCoverage_extends
  (sin : Q -> Q) (n m : nat) (target s : Q) :
  (n <= m)%nat ->
  length (CoverageModule.generateCoverage sin n target s) = n
  /\ (forall i, (i < n)%nat ->
        nth_error (CoverageModule.generateCoverage sin n target s) i
        = Some (CoverageModule.flag sin target s i))
  /\ firstn n (CoverageModule.generateCoverage sin m target s)
     = CoverageModule.generateCoverage sin n target s.
Proof.
  intros Hnm. split; [apply generateCoverage_length | split].
  - intros i Hi. rewrite generateCoverage_map.
    rewrite nth_error_map, nth_error_seq.
    destruct (Nat.ltb_spec i n) as [_ | C]; [reflexivity | lia].
  - rewrite !generateCoverage_map.
    replace m with (n + (m - n))%nat by lia.
    rewrite seq_app, map_app, firstn_app, length_map, length_seq.
    replace (n - n)%nat with 0%nat by lia.
    rewrite firstn_O, app_nil_r.
    apply firstn_all2. rewrite length_map, length_seq. lia.
Qed.

Lemma generateCoverage_extends_witness :
  (10 <= 20)%nat
  /\ length (CoverageModule.generateCoverage (fun x => x) 10 (95 # 100) 0)
     = 10%nat
  /\ (forall i, (i < 10)%nat ->
        nth_error (CoverageModule.generateCoverage (fun x => x) 10 (95 # 100) 0)
          i
        = Some (CoverageModule.flag (fun x => x) (95 # 100) 0 i))
  /\ firstn 10 (CoverageModule.generateCoverage (fun x => x) 20 (95 # 100) 0)
     = CoverageModule.generateCoverage (fun x => x) 10 (95 # 100) 0.
Proof.
  assert (H : (10 <= 20)%nat) by lia.
  split; [exact H |].
  exact (generateCoverage_extends (fun x => x) 10 20 (95 # 100) 0 H).
Defined.

(** X19.  Whatever [Math.sin] returns, the percentages [cov95] and [cov50]
    that [CoverageModule] computes over [sampleSize] are the coverage
    [CoverageBar] computes over [hits.length] for the same flags, printed
    with no decimals. *)
Theorem cov_matches_CoverageBar (sin : Q -> Q) (sampleSize : nat) (seed : Q) :
  CoverageModule.cov95 sin sampleSize seed
  = Num.toFixed 0 (coverage (CoverageModule.hits95 sin sampleSize seed))
  /\ CoverageModule.cov50 sin sampleSize seed
     = Num.toFixed 0 (coverage (CoverageModule.hits50 sin sampleSize seed)).
Proof.
  unfold CoverageModule.cov95, CoverageModule.cov50, cov, coverage,
    CoverageModule.hits95, CoverageModule.hits50.
  rewrite !generateCoverage_length. split; reflexivity.
Qed.

(** ** TabNav and App *)

Lemma click_stays (activeTab : String.string) (k : nat) :
  In activeTab (map fst App.tabs) -> In (App.click activeTab k) (map fst App.tabs).
Proof.
  intros H. unfold App.click.
  destruct (nth_error App.tabs k) as [t |] eqn:E; [| exact H].
  apply in_map, (nth_error_In _ _ E).
Qed.

Lemma clicks_stay (clicks : list nat) (activeTab : String.string) :
  In activeTab (map fst App.tabs) ->
  In (fold_left App.click clicks activeTab) (map fst App.tabs).
Proof.
  revert activeTab. induction clicks as [| k clicks IH]; intros a H.
  - exact H.
  - simpl. apply IH, click_stays, H.
Qed.

(** X20.  From the initial state and after any sequence of clicks on tab
    buttons, [App] renders exactly one panel and [TabNav] draws exactly one
    button as active, the one whose id is the current tab. *)
Theorem App_one_panel (clicks : list nat) :
  (exists p, App.main (App.after clicks) = [p])
  /\ (exists t, App.active_buttons (App.after clicks) = [t]
               /\ fst t = App.after clicks).
Proof.
  assert (H : In (App.after clicks) (map fst App.tabs)).
  { apply clicks_stay. left. reflexivity. }
  destruct H as [E | [E | [E | [E | []]]]]; rewrite <- E; split;
    eexists; try split; reflexivity.
Qed.

(** A click on a tab button makes that tab current, whatever came before. *)
Example last_click_wins (clicks : list nat) :
  App.after (clicks ++ [2%nat]) = "wis"%string
  /\ App.main (App.after (clicks ++ [2%nat])) = [App.WISPanel].
Proof.
  unfold App.after. rewrite fold_left_app. split; reflexivity.
Qed.
